(** * Beaver triples: generator reshape and primitive store

    A shallow embedding of [syft/core/smpc/protocol/beaver/beaver.py]:
    the trusted-party triple generator [_get_triples] with its wrappers
    [get_triples_mul] / [get_triples_matmul], and the four store functions
    [mul_store_add], [mul_store_get], [matmul_store_add], [matmul_store_get].

    Python values are modelled as follows.
    - The CryptoStore is a [dict] from [str] to list objects.  Lists are
      mutable and are installed in the dict by reference, so the model keeps
      a heap of list objects and a dict from keys to heap locations.
    - Exceptions are an explicit [result] type.
    - Shapes are sequences of integers held either in a tuple or in a list;
      the configuration key is the f-string the source builds from them. *)

From Stdlib Require Import Ascii.
From stdpp Require Import gmap strings list pretty.

(** String concatenation unfolds on a literal prefix. *)
#[local] Arguments String.append !_ _ / : simpl nomatch.


(** ** Exceptions *)

Inductive exn :=
  | AttributeError (name : string)
  | TypeError
  | ValueError
  | EmptyPrimitiveStore (msg : string).

Inductive result (X : Type) :=
  | Ok (x : X)
  | Raise (e : exn).
Arguments Ok {X} x.
Arguments Raise {X} e.

Definition is_empty_primitive_store {X} (r : result X) : Prop :=
  ∃ msg, r = Raise (EmptyPrimitiveStore msg).

Definition raises {X} (r : result X) : Prop := ∃ e, r = Raise e.

(** ** Shapes and their rendering inside an f-string *)

Inductive shape :=
  | PyTuple (items : list Z)
  | PyList (items : list Z).

Definition dims (s : shape) : list Z :=
  match s with PyTuple l | PyList l => l end.

(** [tuple(a_shape)] *)
Definition tuple (s : shape) : shape := PyTuple (dims s).

(** The items of a sequence separated by [", "], each printed by [repr]. *)
Fixpoint repr_items (l : list Z) : string :=
  match l with
  | [] => ""
  | x :: rest =>
      match rest with
      | [] => pretty x
      | _ :: _ => pretty x +:+ ", " +:+ repr_items rest
      end
  end.

(** [str] of a tuple or of a list of integers: a one-item tuple prints with
    a trailing comma. *)
Definition py_str (s : shape) : string :=
  match s with
  | PyTuple l =>
      "(" +:+ repr_items l +:+ (match l with [_] => "," | _ => "" end) +:+ ")"
  | PyList l => "[" +:+ repr_items l +:+ "]"
  end.

(** The characters [repr] of an integer is made of. *)
Definition num_char (c : ascii) : bool :=
  match c with
  | "0" | "1" | "2" | "3" | "4" | "5" | "6" | "7" | "8" | "9" | "-" => true
  | _ => false
  end%char.

Fixpoint all_num (s : string) : bool :=
  match s with
  | EmptyString => true
  | String c s' => num_char c && all_num s'
  end.

Definition starts_non_num (s : string) : bool :=
  match s with
  | EmptyString => true
  | String c _ => negb (num_char c)
  end.

(** ** The CryptoStore *)

Abbreviation loc := nat.

Section Store.
Context {A : Type}.

Record state := State {
  store : gmap string loc;
  heap : gmap loc (list A)
}.

(** Contents of the list object at a location. *)
Definition deref (h : gmap loc (list A)) (l : loc) : list A :=
  default [] (h !! l).

(** The queue a key addresses, if the key is in the dict. *)
Definition queue (st : state) (k : string) : option (list A) :=
  deref (heap st) <$> store st !! k.

(** Body shared by [mul_store_add] and [matmul_store_add], once the
    configuration key is built. *)
Definition store_add_key (config_key : string) (st : state)
    (primitives : loc) : state :=
  match store st !! config_key with
  | Some q =>
      State (store st)
        (<[q := deref (heap st) q ++ deref (heap st) primitives]> (heap st))
  | None => State (<[config_key := primitives]> (store st)) (heap st)
  end.

(** Body shared by [mul_store_get] and [matmul_store_get]. *)
Definition store_get_key (config_key : string) (st : state)
    (remove : bool) : result A * state :=
  match store st !! config_key with
  | None =>
      (Raise (EmptyPrimitiveStore
                (config_key +:+ " does not exists in the store")), st)
  | Some primitives =>
      match deref (heap st) primitives with
      | [] =>
          (Raise (EmptyPrimitiveStore
                    ("No primitive in the store for " +:+ config_key)), st)
      | primitive :: rest =>
          (Ok primitive,
           if remove
           then State (store st) (<[primitives := rest]> (heap st))
           else st)
      end
  end.

Definition mul_store_add (st : state) (primitives : loc)
    (a_shape b_shape : shape) : state :=
  store_add_key
    ("beaver_mul_" +:+ py_str a_shape +:+ "_" +:+ py_str b_shape)
    st primitives.

Definition mul_store_get (st : state) (a_shape b_shape : shape)
    (remove : bool) : result A * state :=
  store_get_key
    ("beaver_mul_" +:+ py_str (tuple a_shape) +:+ "_"
       +:+ py_str (tuple b_shape))
    st remove.

Definition matmul_store_add (st : state) (primitives : loc)
    (a_shape b_shape : shape) : state :=
  store_add_key
    ("beaver_matmul_" +:+ py_str a_shape +:+ "_" +:+ py_str b_shape)
    st primitives.

Definition matmul_store_get (st : state) (a_shape b_shape : shape)
    (remove : bool) : result A * state :=
  store_get_key
    ("beaver_matmul_" +:+ py_str (tuple a_shape) +:+ "_"
       +:+ py_str (tuple b_shape))
    st remove.
End Store.
Arguments state A : clear implicits.


(** The registered operations: the decorators [register_primitive_store_add]
    and [register_primitive_store_get] file the four functions above under
    the names ["beaver_mul"] and ["beaver_matmul"]. *)
Inductive beaver_op := beaver_mul | beaver_matmul.

Definition op_name (op : beaver_op) : string :=
  match op with beaver_mul => "beaver_mul" | beaver_matmul => "beaver_matmul" end.

Definition store_add {A} (op : beaver_op)
    : state A → loc → shape → shape → state A :=
  match op with
  | beaver_mul => mul_store_add
  | beaver_matmul => matmul_store_add
  end.

Definition store_get {A} (op : beaver_op)
    : state A → shape → shape → bool → result A * state A :=
  match op with
  | beaver_mul => mul_store_get
  | beaver_matmul => matmul_store_get
  end.

(** The key an [add] files a bundle under, and the key a [get] looks up. *)
Definition add_key (op : beaver_op) (a_shape b_shape : shape) : string :=
  op_name op +:+ "_" +:+ py_str a_shape +:+ "_" +:+ py_str b_shape.

Definition get_key (op : beaver_op) (a_shape b_shape : shape) : string :=
  add_key op (tuple a_shape) (tuple b_shape).

(** ** The triple generator *)

(** [zip] applied to the unpacked [rows]: the columns of [rows], as many as
    the shortest row has items; no column at all when there is no row. *)
Fixpoint zip_star {X} (rows : list (list X)) : list (list X) :=
  match rows with
  | [] => []
  | row :: rest =>
      match rest with
      | [] => (λ x, [x]) <$> row
      | _ :: _ => zip_with cons row (zip_star rest)
      end
  end.

(** The reshape at the end of [_get_triples]: every record [x] of
    [triple_sequential] is unpacked into [zip] and each column made a list;
    the resulting rows are unpacked into an outer [zip] whose columns are
    again made lists.  Tuples and lists are both Rocq lists here, so
    [map(list, _)] is the identity. *)
Definition reshape {X} (triple_sequential : list (list X * list X * list X))
    : list (list (list X)) :=
  zip_star ((λ x, let '(a, b, c) := x in zip_star [a; b; c]) <$> triple_sequential).

(** Every record of [triple_sequential] holds three share lists, one share
    per party. *)
Definition well_shaped {X} (n : nat) (ts : list (list X * list X * list X))
    : Prop :=
  Forall (λ x, let '(a, b, c) := x in
               length a = n ∧ length b = n ∧ length c = n) ts.

(** What the reshape owes its caller for [n] parties and [m] instances: [n]
    bundles, each of length [m], the bundle of party [i] holding at [j] the
    shares of party [i] in the a-, b- and c-list of instance [j], in that
    order. *)
Definition reshape_faithful {X} (n m : nat)
    (ts : list (list X * list X * list X)) : Prop :=
  length (reshape ts) = n
  ∧ ∀ i, i < n →
      ∃ bundle, reshape ts !! i = Some bundle
        ∧ length bundle = m
        ∧ ∀ j a b c, ts !! j = Some (a, b, c) →
            ∃ x y z, a !! i = Some x ∧ b !! i = Some y ∧ c !! i = Some z
              ∧ bundle !! j = Some [x; y; z].

Section Generator.
(** Tensors, share tensors, keyword arguments, and the state of the two
    random sources ([secrets] and the module-level [ttp_generator]). *)
Context {T Sh KW W : Type}.

(** [getattr(operator, op_str)]: [None] when the module [operator] has no
    such attribute. *)
Variable operator_getattr : string → option (T → T → KW → result T).
(** [ShareTensor.compute_min_max_from_ring] *)
Variable compute_min_max_from_ring : Z → Z * Z.
(** [secrets.randbits] *)
Variable randbits : nat → W → Z * W.
(** [Tensor(ttp_generator.integers(low, high, size, endpoint=True, dtype=np.int32))] *)
Variable integers : Z → Z → shape → W → result T * W.
(** [c_val.shape] *)
Variable tensor_shape : T → shape.
(** [MPCTensor._get_shares_from_local_secret(secret, nr_parties, shape, seed_shares)] *)
Variable _get_shares_from_local_secret : T → Z → shape → Z → result (list Sh).

(** The calls a run makes to its collaborators, oldest first. *)
Inductive call :=
  | CallRandbits (k : nat) (value : Z)
  | CallIntegers (low high : Z) (size : shape) (value : result T)
  | CallShares (secret : T) (nr_parties : Z) (shp : shape) (seed_shares : Z)
  | CallCmd (a b : T) (kwargs : KW) (value : result T).

Record world := World { rng : W; calls : list call }.

(** Computations that read and advance the world and may raise. *)
Definition M (X : Type) : Type := world → result X * world.

Definition ret {X} (x : X) : M X := λ w, (Ok x, w).

Definition bind {X Y} (c : M X) (k : X → M Y) : M Y :=
  λ w, match c w with
       | (Ok x, w') => k x w'
       | (Raise e, w') => (Raise e, w')
       end.

Definition log (c : call) (w : world) : world :=
  World (rng w) (calls w ++ [c]).

Definition getattr_operator (op_str : string) : M (T → T → KW → result T) :=
  λ w, match operator_getattr op_str with
       | Some cmd => (Ok cmd, w)
       | None => (Raise (AttributeError op_str), w)
       end.

Definition secrets_randbits (k : nat) : M Z :=
  λ w, let '(v, r) := randbits k (rng w) in
       (Ok v, log (CallRandbits k v) (World r (calls w))).

Definition ttp_integers (low high : Z) (size : shape) : M T :=
  λ w, let '(t, r) := integers low high size (rng w) in
       (t, log (CallIntegers low high size t) (World r (calls w))).

Definition get_shares (secret : T) (nr_parties : Z) (shp : shape)
    (seed_shares : Z) : M (list Sh) :=
  λ w, (_get_shares_from_local_secret secret nr_parties shp seed_shares,
        log (CallShares secret nr_parties shp seed_shares) w).

Definition apply_cmd (cmd : T → T → KW → result T) (a b : T) (kwargs : KW)
    : M T :=
  λ w, (cmd a b kwargs, log (CallCmd a b kwargs (cmd a b kwargs)) w).

Notation "'do' x <~ c ;; k" := (bind c (λ x, k))
  (at level 10, x name, c at level 99, k at level 200, only parsing).

Definition _get_triples (op_str : string) (nr_parties : Z)
    (a_shape b_shape : shape) (ring_size : Z) (kwargs : KW)
    : M (list (list (list Sh))) :=
  do cmd <~ getattr_operator op_str ;;
  let '(min_value, max_value) := compute_min_max_from_ring ring_size in
  do seed_shares <~ secrets_randbits 32 ;;
  do a_rand <~ ttp_integers min_value max_value a_shape ;;
  do a_shares <~ get_shares a_rand nr_parties a_shape seed_shares ;;
  do b_rand <~ ttp_integers min_value max_value b_shape ;;
  do b_shares <~ get_shares b_rand nr_parties b_shape seed_shares ;;
  do c_val <~ apply_cmd cmd a_rand b_rand kwargs ;;
  do c_shares <~ get_shares c_val nr_parties (tensor_shape c_val) seed_shares ;;
  let triple_sequential := [(a_shares, b_shares, c_shares)] in
  ret (reshape triple_sequential).

Definition get_triples_mul := _get_triples "mul".
Definition get_triples_matmul := _get_triples "matmul".

(** The generators as [register_primitive_generator] files them. *)
Definition generate (op : beaver_op) :=
  match op with
  | beaver_mul => get_triples_mul
  | beaver_matmul => get_triples_matmul
  end.

(** The seeds a run drew, and the seeds it handed to the share splitter. *)
Definition seeds_generated (cs : list call) : list Z :=
  omap (λ c, match c with CallRandbits _ v => Some v | _ => None end) cs.

Definition share_seeds (cs : list call) : list Z :=
  omap (λ c, match c with CallShares _ _ _ s => Some s | _ => None end) cs.

(** The secrets a run handed to the share splitter. *)
Definition share_secrets (cs : list call) : list T :=
  omap (λ c, match c with CallShares t _ _ _ => Some t | _ => None end) cs.

(** The order of the plaintext product and the share splittings in a log:
    the operator function is applied before any share splitting is made. *)
Definition is_cmd_call (c : call) : bool :=
  match c with CallCmd _ _ _ _ => true | _ => false end.

Definition is_shares_call (c : call) : bool :=
  match c with CallShares _ _ _ _ => true | _ => false end.

Definition product_before_any_sharing (cs : list call) : Prop :=
  ∀ i j ci cj,
    cs !! i = Some ci → cs !! j = Some cj →
    is_cmd_call ci → is_shares_call cj → i < j.
End Generator.

(** The operator string each registered generator hands to [_get_triples]. *)
Definition op_str_of (op : beaver_op) : string :=
  match op with beaver_mul => "mul" | beaver_matmul => "matmul" end.

(** ** A small instance of the collaborators

    Tensors are single integers (one-by-one matrices, on which the
    elementwise and the matrix product agree), the random sources read from a
    list of integers, and a secret is split for two parties. *)

Definition demo_operator (name : string) : option (Z → Z → unit → result Z) :=
  if decide (name = "mul") then Some (λ a b _, Ok (a * b)%Z)
  else if decide (name = "matmul") then Some (λ a b _, Ok (a * b)%Z)
  else if decide (name = "add") then Some (λ a b _, Ok (a + b)%Z)
  else None.

Definition demo_min_max (ring_size : Z) : Z * Z :=
  ((- ring_size) `div` 2, ring_size `div` 2 - 1)%Z.

Definition demo_randbits (k : nat) (w : list Z) : Z * list Z :=
  (hd 0%Z w, tl w).

Definition demo_integers (low high : Z) (size : shape) (w : list Z)
    : result Z * list Z :=
  (Ok (hd 0%Z w), tl w).

Definition demo_shape (t : Z) : shape := PyTuple [1; 1]%Z.

Definition demo_shares (secret nr_parties : Z) (shp : shape) (seed : Z)
    : result (list Z) :=
  Ok [seed; (secret - seed)%Z].

Definition demo_get_triples :=
  _get_triples demo_operator demo_min_max demo_randbits demo_integers
    demo_shape demo_shares.

Definition demo_world : world (T := Z) (KW := unit) (W := list Z) :=
  World [11; 3; 5]%Z [].

(** The names the decorators register, and the operator strings the
    registered generators hand to [_get_triples]. *)
Definition registered_names : list string := ["beaver_mul"; "beaver_matmul"].

Definition registered_op_str (op_str : string) : Prop :=
  ∃ op, op_str = op_str_of op.

(** ** Consumers

    [n] removing gets in a row on one operation and one pair of shapes, as
    a party makes them when it runs [n] secure products; the results are
    listed oldest first. *)
Fixpoint get_many {A} (op : beaver_op) (st : state A) (a_shape b_shape : shape)
    (n : nat) : list (result A) * state A :=
  match n with
  | 0 => ([], st)
  | S n' =>
      let '(r, st') := store_get op st a_shape b_shape true in
      let '(rs, st'') := get_many op st' a_shape b_shape n' in
      (r :: rs, st'')
  end.

(** Two more collaborators for the small instance: an operator table whose
    matrix product rejects its operands, and a draw that rejects bounds
    outside the 32-bit integers. *)
Definition demo_operator_strict (name : string)
    : option (Z → Z → unit → result Z) :=
  if decide (name = "mul") then Some (λ a b _, Ok (a * b)%Z)
  else if decide (name = "matmul") then Some (λ a b _, Raise ValueError)
  else None.

Definition demo_integers_int32 (low high : Z) (size : shape) (w : list Z)
    : result Z * list Z :=
  if decide (- 2 ^ 31 ≤ low ∧ high ≤ 2 ^ 31 - 1)%Z
  then (Ok (hd 0%Z w), tl w)
  else (Raise ValueError, w).

(** * Properties *)

Example py_str_pair : py_str (PyTuple [1; 2]%Z) = "(1, 2)".
Proof. reflexivity. Qed.
Example py_str_single : py_str (PyTuple [-7]%Z) = "(-7,)".
Proof. reflexivity. Qed.
Example py_str_list : py_str (PyList [1; 2]%Z) = "[1, 2]".
Proof. reflexivity. Qed.
Example py_str_empty : py_str (PyTuple []) = "()" ∧ py_str (PyList []) = "[]".
Proof. split; reflexivity. Qed.
Example zip_star_shortest : zip_star [[1; 2; 3]; [4; 5]] = [[1; 4]; [2; 5]].
Proof. reflexivity. Qed.
Example reshape_two_instances :
  reshape [([1; 2], [3; 4], [5; 6]); ([7; 8], [9; 10], [11; 12])]
  = [[[1; 3; 5]; [7; 9; 11]]; [[2; 4; 6]; [8; 10; 12]]].
Proof. reflexivity. Qed.

(** ** The store: dispatch and basic facts *)

Lemma store_add_eq {A} op (st : state A) p a b :
  store_add op st p a b = store_add_key (add_key op a b) st p.
Proof. by destruct op. Qed.

Lemma store_get_eq {A} op (st : state A) a b remove :
  store_get op st a b remove = store_get_key (get_key op a b) st remove.
Proof. by destruct op. Qed.

Lemma get_key_tuple op da db :
  get_key op (PyTuple da) (PyTuple db) = add_key op (PyTuple da) (PyTuple db).
Proof. reflexivity. Qed.

Section StoreFacts.
Context {A : Type}.
Implicit Types (st : state A) (k : string) (p : loc).

Lemma queue_None st k : queue st k = None ↔ store st !! k = None.
Proof. unfold queue. by rewrite fmap_None. Qed.

(** An add puts the bundle, as it is when the call is made, behind what
    the key held. *)
Lemma queue_store_add_key st k p :
  queue (store_add_key k st p) k
  = Some (default [] (queue st k) ++ deref (heap st) p).
Proof.
  unfold queue, store_add_key.
  destruct (store st !! k) as [q|] eqn:Hk; simpl.
  - rewrite Hk. simpl. unfold deref at 1. by rewrite lookup_insert_eq.
  - by rewrite lookup_insert_eq.
Qed.

Lemma store_get_key_empty st k remove :
  queue st k = None ∨ queue st k = Some [] →
  is_empty_primitive_store (store_get_key k st remove).1
  ∧ (store_get_key k st remove).2 = st.
Proof.
  unfold queue, store_get_key, is_empty_primitive_store.
  destruct (store st !! k) as [q|]; simpl.
  - intros [?|[= ->]]; [done|]. eauto.
  - eauto.
Qed.

Lemma store_get_key_head st k remove x rest :
  queue st k = Some (x :: rest) →
  (store_get_key k st remove).1 = Ok x
  ∧ queue (store_get_key k st remove).2 k
    = Some (if remove then rest else x :: rest)
  ∧ (remove = false → (store_get_key k st remove).2 = st).
Proof.
  unfold queue, store_get_key.
  destruct (store st !! k) as [q|] eqn:Hk; simpl; [|done].
  intros [= Hd]. rewrite Hd. destruct remove; simpl; rewrite Hk; simpl.
  - unfold deref at 1. rewrite lookup_insert_eq. done.
  - by rewrite Hd.
Qed.

Lemma store_get_key_raises st k remove :
  raises (store_get_key k st remove).1 →
  queue st k = None ∨ queue st k = Some [].
Proof.
  destruct (queue st k) as [[|x rest]|] eqn:Hq; auto.
  destruct (store_get_key_head st k remove x rest Hq) as [-> _].
  by intros [e ?].
Qed.
End StoreFacts.

(** ** Retrieval *)

(** C4: a get raises [EmptyPrimitiveStore] exactly when its key is absent or
    addresses an empty queue; otherwise it returns the item at index 0, and
    with [remove] set that item is deleted from the queue. *)
Theorem C4_store_get_outcome {A} op (st : state A) a b remove :
  let K := get_key op a b in
  let r := store_get op st a b remove in
  (is_empty_primitive_store r.1 ↔ queue st K = None ∨ queue st K = Some [])
  ∧ match queue st K with
    | Some (x :: rest) =>
        r.1 = Ok x ∧ queue r.2 K = Some (if remove then rest else x :: rest)
    | _ => is_empty_primitive_store r.1
    end.
Proof.
  intros K r. subst r. rewrite store_get_eq. fold K. split.
  - split.
    + intros [msg Hr]. apply (store_get_key_raises st K remove). by exists (EmptyPrimitiveStore msg).
    + intros H. by apply store_get_key_empty.
  - destruct (queue st K) as [[|x rest]|] eqn:Hq.
    + apply store_get_key_empty; auto.
    + destruct (store_get_key_head st K remove x rest Hq) as (?&?&_). done.
    + apply store_get_key_empty; auto.
Qed.

(** C8: with [remove] unset, two gets in a row on a key with a non-empty
    queue both return its head, and each leaves the whole store, every queue
    of it, as it was. *)
Theorem C8_get_without_remove {A} op (st : state A) a b x rest :
  queue st (get_key op a b) = Some (x :: rest) →
  let r1 := store_get op st a b false in
  let r2 := store_get op r1.2 a b false in
  r1.1 = Ok x ∧ r1.2 = st ∧ r2.1 = Ok x ∧ r2.2 = st.
Proof.
  intros Hq r1 r2. subst r1 r2. rewrite !store_get_eq.
  destruct (store_get_key_head st _ false x rest Hq) as (H1 & _ & H2).
  rewrite (H2 eq_refl). auto.
Qed.

(** C10: a get that raises [EmptyPrimitiveStore] leaves the store exactly as
    it found it. *)
Theorem C10_failed_get_keeps_store {A} op (st : state A) a b remove :
  is_empty_primitive_store (store_get op st a b remove).1 →
  (store_get op st a b remove).2 = st.
Proof.
  rewrite store_get_eq. intros [msg Hr].
  apply store_get_key_empty, (store_get_key_raises st _ remove).
  by exists (EmptyPrimitiveStore msg).
Qed.

(** ** First in, first out *)

(** C5: starting from a key that is absent (or holds an empty queue), three
    adds whose bundles hold [t1], [t2] and [t3] when they are passed are
    followed by three removing gets that return [t1], [t2], [t3] in that
    order, and by a fourth that raises [EmptyPrimitiveStore]. *)
Theorem C5_store_fifo {A} op (st : state A) da db p1 p2 p3 t1 t2 t3 :
  let a := PyTuple da in
  let b := PyTuple db in
  let st1 := store_add op st p1 a b in
  let st2 := store_add op st1 p2 a b in
  let st3 := store_add op st2 p3 a b in
  let r1 := store_get op st3 a b true in
  let r2 := store_get op r1.2 a b true in
  let r3 := store_get op r2.2 a b true in
  let r4 := store_get op r3.2 a b true in
  queue st (add_key op a b) = None ∨ queue st (add_key op a b) = Some [] →
  deref (heap st) p1 = [t1] →
  deref (heap st1) p2 = [t2] →
  deref (heap st2) p3 = [t3] →
  r1.1 = Ok t1 ∧ r2.1 = Ok t2 ∧ r3.1 = Ok t3
  ∧ is_empty_primitive_store r4.1.
Proof.
  intros a b st1 st2 st3 r1 r2 r3 r4 Hinit H1 H2 H3.
  subst r1 r2 r3 r4 st3 st2 st1.
  rewrite !store_get_eq, !store_add_eq in *.
  change (get_key op a b) with (add_key op a b).
  set (K := add_key op a b) in *.
  set (st1 := store_add_key K st p1) in *.
  set (st2 := store_add_key K st1 p2) in *.
  set (st3 := store_add_key K st2 p3) in *.
  assert (Q1 : queue st1 K = Some [t1]).
  { unfold st1. rewrite queue_store_add_key, H1. by destruct Hinit as [-> | ->]. }
  assert (Q2 : queue st2 K = Some [t1; t2]).
  { unfold st2. by rewrite queue_store_add_key, Q1, H2. }
  assert (Q3 : queue st3 K = Some [t1; t2; t3]).
  { unfold st3. by rewrite queue_store_add_key, Q2, H3. }
  destruct (store_get_key_head st3 K true _ _ Q3) as (E1 & Q4 & _).
  destruct (store_get_key_head _ K true _ _ Q4) as (E2 & Q5 & _).
  destruct (store_get_key_head _ K true _ _ Q5) as (E3 & Q6 & _).
  repeat split; try done.
  apply store_get_key_empty. by right.
Qed.

(** ** Configuration keys *)

Lemma string_app_assoc (s1 s2 s3 : string) :
  (s1 +:+ s2) +:+ s3 = s1 +:+ s2 +:+ s3.
Proof. induction s1 as [|c s1 IH]; simpl; [done|]. by rewrite IH. Qed.

Lemma all_num_app s1 s2 : all_num s1 → all_num s2 → all_num (s1 +:+ s2).
Proof.
  induction s1 as [|c s1 IH]; simpl; [done|].
  intros [??]%andb_True ?. apply andb_True. auto.
Qed.

Lemma num_char_pretty_N_char n : num_char (pretty_N_char n).
Proof. unfold pretty_N_char. by repeat case_match. Qed.

Lemma pretty_N_go_num x s :
  ∃ d, pretty_N_go x s = d +:+ s ∧ all_num d ∧ ((0 < x)%N → d ≠ "").
Proof.
  revert s. induction (N.lt_wf_0 x) as [x _ IH]; intros s.
  destruct (decide (x = 0%N)) as [->|Hx].
  - exists "". rewrite pretty_N_go_0. split_and!; [done..|lia].
  - rewrite pretty_N_go_step by lia.
    destruct (IH (x `div` 10)%N) with (s := String (pretty_N_char (x `mod` 10)) s)
      as (d & -> & Hd & _).
    { apply N.div_lt; lia. }
    exists (d +:+ String (pretty_N_char (x `mod` 10)) "").
    rewrite string_app_assoc. split_and!; [done| |].
    + apply all_num_app; [done|]. simpl.
      apply andb_True. split; [apply num_char_pretty_N_char|done].
    + intros _. by destruct d.
Qed.

Lemma pretty_N_num (x : N) : all_num (pretty x) ∧ pretty x ≠ "".
Proof.
  unfold pretty, pretty_N. case_decide as Hx; [done|].
  destruct (pretty_N_go_num x "") as (d & -> & Hd & Hne).
  assert (d +:+ "" = d) as ->.
  { clear. induction d as [|c d IH]; simpl; [done|]. by rewrite IH. }
  split; [done|]. apply Hne. lia.
Qed.

Lemma pretty_Z_num (x : Z) : all_num (pretty x) ∧ pretty x ≠ "".
Proof.
  destruct x as [|p|p]; [done| |].
  - apply (pretty_N_num (Npos p)).
  - change (pretty (Zneg p)) with ("-" +:+ pretty (Npos p)).
    split; [|done]. simpl. apply (pretty_N_num (Npos p)).
Qed.

(** Two runs of integer characters followed by something else agree as
    soon as the whole texts agree. *)
Lemma num_split u v s s' :
  all_num u → all_num v → starts_non_num s → starts_non_num s' →
  u +:+ s = v +:+ s' → u = v ∧ s = s'.
Proof.
  revert v. induction u as [|c u IH]; intros [|c' v]; simpl.
  - done.
  - intros _ [Hc _]%andb_True Hs _ ->. simpl in Hs. by destruct (num_char c').
  - intros [Hc _]%andb_True _ _ Hs <-. simpl in Hs. by destruct (num_char c).
  - intros [_ Hu]%andb_True [_ Hv]%andb_True Hs Hs' [= -> Heq].
    destruct (IH v Hu Hv Hs Hs' Heq) as [-> ->]. done.
Qed.

Lemma pretty_split (x y : Z) s s' :
  starts_non_num s → starts_non_num s' →
  pretty x +:+ s = pretty y +:+ s' → x = y ∧ s = s'.
Proof.
  intros Hs Hs' Heq.
  destruct (num_split _ _ _ _ (proj1 (pretty_Z_num x)) (proj1 (pretty_Z_num y))
              Hs Hs' Heq) as [Hxy ->].
  split; [|done]. by apply (inj pretty).
Qed.

(** A closing bracket cannot be the first character of an integer. *)
Lemma pretty_not_closer (x : Z) c s s' :
  num_char c = false → String c s ≠ pretty x +:+ s'.
Proof.
  intros Hc Heq. destruct (pretty_Z_num x) as [Hn Hne].
  destruct (pretty x) as [|c' p]; [done|].
  simpl in *. injection Heq as <- _.
  rewrite Hc in Hn. done.
Qed.

Lemma repr_items_nil : repr_items [] = "".
Proof. reflexivity. Qed.

Lemma repr_items_one x : repr_items [x] = pretty x.
Proof. reflexivity. Qed.

Lemma repr_items_cons2 x y rest :
  repr_items (x :: y :: rest) = pretty x +:+ ", " +:+ repr_items (y :: rest).
Proof. reflexivity. Qed.

#[local] Arguments repr_items : simpl never.

(** Bring both sides of an equation between renderings to the form
    [pretty x +:+ rest] or [String c rest]. *)
Ltac norm_str H :=
  rewrite ?repr_items_cons2, ?repr_items_one, ?repr_items_nil,
    ?string_app_assoc in H;
  simpl in H.

(** The items of a sequence can be read back from their rendering, whatever
    follows the closing bracket. *)
Lemma repr_items_close c l l' r r' :
  num_char c = false → c ≠ ","%char →
  repr_items l +:+ String c r = repr_items l' +:+ String c r' →
  l = l' ∧ r = r'.
Proof.
  intros Hc Hcomma. revert l'.
  induction l as [|x [|x2 rest] IH]; intros [|y [|y2 rest']] Heq; norm_str Heq.
  - by injection Heq as ->.
  - by apply pretty_not_closer in Heq.
  - by apply pretty_not_closer in Heq.
  - symmetry in Heq. by apply pretty_not_closer in Heq.
  - apply pretty_split in Heq as [-> [= ->]]; simpl; by rewrite ?Hc.
  - apply pretty_split in Heq as [_ Heq]; simpl; rewrite ?Hc; try done.
    by injection Heq as ? _.
  - symmetry in Heq. by apply pretty_not_closer in Heq.
  - apply pretty_split in Heq as [_ Heq]; simpl; rewrite ?Hc; try done.
    by injection Heq as ? _.
  - apply pretty_split in Heq as [-> Heq]; [|done..].
    injection Heq as Heq.
    destruct (IH (y2 :: rest') Heq) as [-> ->]. done.
Qed.

(** [str] of a shape is a prefix-free code. *)
Lemma py_str_prefix_free a a' r r' :
  py_str a +:+ r = py_str a' +:+ r' → a = a' ∧ r = r'.
Proof.
  destruct a as [l|l], a' as [l'|l']; unfold py_str; intros Heq;
    norm_str Heq; try discriminate Heq; injection Heq as Heq.
  - destruct l as [|x [|x2 rest]], l' as [|y [|y2 rest']]; norm_str Heq.
    + by injection Heq as ->.
    + by apply pretty_not_closer in Heq.
    + by apply pretty_not_closer in Heq.
    + symmetry in Heq. by apply pretty_not_closer in Heq.
    + apply pretty_split in Heq as [-> [= ->]]; done.
    + apply pretty_split in Heq as [_ Heq]; done.
    + symmetry in Heq. by apply pretty_not_closer in Heq.
    + apply pretty_split in Heq as [_ Heq]; done.
    + apply pretty_split in Heq as [-> Heq]; [|done..].
      injection Heq as Heq.
      apply (repr_items_close ")"%char) in Heq as [[= -> ->] ->]; done.
  - apply (repr_items_close "]"%char) in Heq as [-> ->]; done.
Qed.

Lemma py_str_inj : Inj (=) (=) py_str.
Proof.
  intros a a' Heq.
  destruct (py_str_prefix_free a a' "" "") as [-> _]; [|done].
  by rewrite Heq.
Qed.

(** Keys built for the two operations differ whatever the shapes are. *)
Lemma add_key_op_ne a b a' b' :
  add_key beaver_mul a b ≠ add_key beaver_matmul a' b'.
Proof. unfold add_key. simpl. discriminate. Qed.

(** A key determines the operation and both shapes as they were rendered. *)
Lemma add_key_inj op a b op' a' b' :
  add_key op a b = add_key op' a' b' → op = op' ∧ a = a' ∧ b = b'.
Proof.
  destruct op, op'; intros Heq.
  2: by apply add_key_op_ne in Heq.
  2: symmetry in Heq; by apply add_key_op_ne in Heq.
  all: unfold add_key in Heq; simpl in Heq; injection Heq as Heq.
  all: apply py_str_prefix_free in Heq as [-> [= Heq]].
  all: by apply py_str_inj in Heq as ->.
Qed.

(** A get normalises both shapes, so it reads the same key for a list and
    for a tuple with the same items. *)
Lemma get_key_container_blind op a b a' b' :
  dims a = dims a' → dims b = dims b' → get_key op a b = get_key op a' b'.
Proof. unfold get_key, tuple. by intros -> ->. Qed.

(** An add does not normalise: the key of a bundle filed under a list-typed
    first shape is one no get ever reads. *)
Lemma add_key_list_never_read op l b op' a' b' :
  add_key op (PyList l) b ≠ get_key op' a' b'.
Proof. intros Heq. by apply add_key_inj in Heq as (_ & ? & _). Qed.

(** ** Key canonicalisation *)

(** C3, at the failing input: a bundle [[7]] is added to an empty store for
    ["beaver_mul"] with both shapes given as the list [[1, 2]]; the key it is
    filed under differs from the one read for the tuple [(1, 2)], and the
    get with the tuple shapes raises [EmptyPrimitiveStore]. *)
Theorem C3_list_shapes_miss :
  let st0 : state nat := State ∅ {[ 0 := [7] ]} in
  let st1 := mul_store_add st0 0 (PyList [1; 2]%Z) (PyList [1; 2]%Z) in
  add_key beaver_mul (PyList [1; 2]%Z) (PyList [1; 2]%Z) = "beaver_mul_[1, 2]_[1, 2]"
  ∧ get_key beaver_mul (PyTuple [1; 2]%Z) (PyTuple [1; 2]%Z) = "beaver_mul_(1, 2)_(1, 2)"
  ∧ queue st1 "beaver_mul_[1, 2]_[1, 2]" = Some [7]
  ∧ (mul_store_get st1 (PyTuple [1; 2]%Z) (PyTuple [1; 2]%Z) true).1
    = Raise (EmptyPrimitiveStore
               "beaver_mul_(1, 2)_(1, 2) does not exists in the store")
  ∧ (mul_store_get st1 (PyList [1; 2]%Z) (PyList [1; 2]%Z) true).1
    = Raise (EmptyPrimitiveStore
               "beaver_mul_(1, 2)_(1, 2) does not exists in the store").
Proof. vm_compute. done. Qed.

(** ** Key isolation *)

Section Isolation.
Context {A : Type}.
Implicit Types (st : state A) (k : string) (p : loc).

(** What a get returns depends on the queue under its key only. *)
Lemma store_get_key_result st st' k remove :
  queue st k = queue st' k →
  (store_get_key k st remove).1 = (store_get_key k st' remove).1.
Proof.
  unfold queue, store_get_key.
  destruct (store st !! k) as [q|], (store st' !! k) as [q'|]; simpl;
    intros Hd; try done.
  injection Hd as ->. by destruct (deref (heap st') q').
Qed.

(** An add under [k] keeps the queue under another key [k'], unless both
    keys are bound to one and the same list object. *)
Lemma queue_store_add_key_ne st k k' p :
  k ≠ k' →
  store st !! k = None ∨ store st !! k ≠ store st !! k' →
  queue (store_add_key k st p) k' = queue st k'.
Proof.
  intros Hk Halias. unfold queue, store_add_key.
  destruct (store st !! k) as [q|] eqn:Hq; simpl.
  - destruct Halias as [?|Hne]; [done|].
    destruct (store st !! k') as [q'|]; simpl; [|done].
    unfold deref at 1. rewrite lookup_insert_ne; [done|congruence].
  - by rewrite lookup_insert_ne.
Qed.
End Isolation.

(** C9, as stated, for the state reached by three adds: the bundle object
    at location 0 (empty at first) is added under the shapes [(1,)] and then
    under [(2,)], so both keys are bound to that one list; an add of [[7]]
    under [(1,)] then changes what a get under [(2,)] returns. *)
Lemma C9_shared_bundle_counterexample :
  let a1 := PyTuple [1]%Z in
  let a2 := PyTuple [2]%Z in
  let st0 : state nat := State ∅ {[ 0 := []; 1 := [7] ]} in
  let st1 := mul_store_add st0 0 a1 a1 in
  let st2 := mul_store_add st1 0 a2 a2 in
  let st3 := mul_store_add st2 1 a1 a1 in
  add_key beaver_mul a1 a1 ≠ add_key beaver_mul a2 a2
  ∧ queue st2 (add_key beaver_mul a2 a2) = Some []
  ∧ queue st3 (add_key beaver_mul a2 a2) = Some [7]
  ∧ is_empty_primitive_store (mul_store_get st2 a2 a2 true).1
  ∧ (mul_store_get st3 a2 a2 true).1 = Ok 7.
Proof.
  split_and!; try (vm_compute; done).
  eexists. vm_compute. reflexivity.
Qed.

(** C9, amended: when the key of an add and the key of a get differ in the
    operation or in a shape, and the two keys are not bound to one and the
    same list object, the add leaves the queue read by the get unchanged and
    the get returns what it returned before; keys of ["beaver_mul"] and of
    ["beaver_matmul"] are never equal. *)
Theorem C9_key_isolation {A} (st : state A) op1 p a1 b1 op2 a2 b2 remove :
  let K1 := add_key op1 a1 b1 in
  let K2 := get_key op2 a2 b2 in
  let st' := store_add op1 st p a1 b1 in
  op1 ≠ op2 ∨ a1 ≠ tuple a2 ∨ b1 ≠ tuple b2 →
  store st !! K1 = None ∨ store st !! K1 ≠ store st !! K2 →
  queue st' K2 = queue st K2
  ∧ (store_get op2 st' a2 b2 remove).1 = (store_get op2 st a2 b2 remove).1
  ∧ ∀ a b a' b',
      add_key beaver_mul a b ≠ add_key beaver_matmul a' b'
      ∧ add_key beaver_mul a b ≠ get_key beaver_matmul a' b'
      ∧ add_key beaver_matmul a b ≠ get_key beaver_mul a' b'.
Proof.
  intros K1 K2 st' Hdiff Halias.
  assert (HK : K1 ≠ K2).
  { intros Heq. apply add_key_inj in Heq as (? & ? & ?).
    destruct Hdiff as [?|[?|?]]; done. }
  assert (Hq : queue st' K2 = queue st K2).
  { unfold st'. rewrite store_add_eq. by apply queue_store_add_key_ne. }
  split_and!; [done| |].
  - rewrite !store_get_eq. by apply store_get_key_result.
  - intros a b a' b'. split_and!.
    + apply add_key_op_ne.
    + apply add_key_op_ne.
    + intros Heq. symmetry in Heq. by apply add_key_op_ne in Heq.
Qed.

(** ** The reshape *)

Section Reshape.
Context {X : Type}.
Implicit Types (rows : list (list X)) (ts : list (list X * list X * list X)).

Lemma zip_star_cons2 row row2 rows :
  zip_star (row :: row2 :: rows) = zip_with cons row (zip_star (row2 :: rows)).
Proof. reflexivity. Qed.

(** Column [i] of the rows exists exactly when every row has an item at
    [i], and then lists those items in row order. *)
Lemma zip_star_lookup rows i :
  rows ≠ [] → zip_star rows !! i = mapM (λ row, row !! i) rows.
Proof.
  induction rows as [|row [|row2 rows] IH]; intros Hne; [done| |].
  - simpl. rewrite list_lookup_fmap. by destruct (row !! i).
  - rewrite zip_star_cons2, lookup_zip_with, IH by done.
    change (mapM (λ r, r !! i) (row :: row2 :: rows))
      with (y ← row !! i; k ← mapM (λ r, r !! i) (row2 :: rows); mret (y :: k)).
    by destruct (row !! i).
Qed.

Lemma zip_star_length rows n :
  rows ≠ [] → Forall (λ row, length row = n) rows →
  length (zip_star rows) = n.
Proof.
  induction rows as [|row [|row2 rows] IH]; intros Hne Hall; [done| |].
  - simpl. rewrite length_fmap. by inversion Hall.
  - rewrite zip_star_cons2, length_zip_with.
    inversion Hall as [|?? Hrow Hrest]; subst.
    rewrite IH by done. lia.
Qed.

(** The row the inner [zip] makes of one instance. *)
Lemma instance_row_lookup (a b c : list X) i x y z :
  a !! i = Some x → b !! i = Some y → c !! i = Some z →
  zip_star [a; b; c] !! i = Some [x; y; z].
Proof.
  intros Ha Hb Hc. rewrite zip_star_lookup by done. simpl.
  by rewrite Ha, Hb, Hc.
Qed.

Lemma reshape_column ts n i :
  well_shaped n ts → i < n →
  ∃ bundle,
    mapM (λ row, row !! i)
      ((λ x, let '(a, b, c) := x in zip_star [a; b; c]) <$> ts) = Some bundle
    ∧ length bundle = length ts
    ∧ ∀ j a b c, ts !! j = Some (a, b, c) →
        ∃ x y z, a !! i = Some x ∧ b !! i = Some y ∧ c !! i = Some z
          ∧ bundle !! j = Some [x; y; z].
Proof.
  intros Hws Hi. induction Hws as [|[[a b] c] ts (Ha & Hb & Hc) _ IH].
  - exists []. split_and!; [done..|]. intros j a b c Hj. done.
  - destruct IH as (bundle & Hcol & Hlen & Hat).
    destruct (lookup_lt_is_Some_2 a i) as [x Hx]; [lia|].
    destruct (lookup_lt_is_Some_2 b i) as [y Hy]; [lia|].
    destruct (lookup_lt_is_Some_2 c i) as [z Hz]; [lia|].
    exists ([x; y; z] :: bundle). split_and!.
    + rewrite fmap_cons.
      change (mapM ?f (?r :: ?rs)) with (y ← f r; k ← mapM f rs; mret (y :: k)).
      cbv beta iota.
      rewrite (instance_row_lookup a b c i x y z), Hcol by done. done.
    + simpl. by rewrite Hlen.
    + intros [|j] a' b' c' Hj; simpl in Hj.
      * injection Hj as <- <- <-. by exists x, y, z.
      * apply (Hat j a' b' c' Hj).
Qed.
End Reshape.

(** C2, as stated, at no instance and two parties: the reshape of an empty
    [triple_sequential] is empty, not two bundles. *)
Lemma C2_no_instance_counterexample :
  let ts : list (list nat * list nat * list nat) := [] in
  2 ≤ 2 ∧ length ts = 0 ∧ well_shaped 2 ts ∧ reshape ts = []
  ∧ ¬ reshape_faithful 2 0 ts.
Proof.
  split_and!; [lia|done|by constructor|done|].
  intros [Hlen _]. simpl in Hlen. lia.
Qed.

(** C2, amended: for every number [m >= 1] of instances and every number
    [n] of parties, the reshape yields [n] bundles of length [m], and bundle
    [i] holds at [j] the list of party [i]'s a-, b- and c-share of
    instance [j]. *)
Theorem C2_reshape_fidelity {X} (n m : nat)
    (ts : list (list X * list X * list X)) :
  1 ≤ m → length ts = m → well_shaped n ts → reshape_faithful n m ts.
Proof.
  intros Hm Hlen Hws. unfold reshape_faithful, reshape.
  assert (Hne : (λ x, let '(a, b, c) := x in zip_star [a; b; c]) <$> ts
                ≠ ([] : list (list (list X)))).
  { destruct ts; [simpl in Hlen; lia|done]. }
  split.
  - apply zip_star_length; [done|].
    apply Forall_fmap. eapply Forall_impl; [exact Hws|].
    intros [[a b] c] (Ha & Hb & Hc). simpl.
    apply (zip_star_length [a; b; c]); [done|]. by repeat constructor.
  - intros i Hi. rewrite zip_star_lookup by done.
    destruct (reshape_column ts n i Hws Hi) as (bundle & Hcol & Hl & Hat).
    exists bundle. split_and!; [done|congruence|done].
Qed.

(** ** The generator *)

Section GeneratorFacts.
Context {T Sh KW W : Type}.
Variable operator_getattr : string → option (T → T → KW → result T).
Variable compute_min_max_from_ring : Z → Z * Z.
Variable randbits : nat → W → Z * W.
Variable integers : Z → Z → shape → W → result T * W.
Variable tensor_shape : T → shape.
Variable _get_shares_from_local_secret : T → Z → shape → Z → result (list Sh).

#[local] Abbreviation run :=
  (_get_triples operator_getattr compute_min_max_from_ring randbits integers
     tensor_shape _get_shares_from_local_secret).
#[local] Abbreviation shares := _get_shares_from_local_secret.

(** Unfold one run down to the results of its collaborators. *)
Ltac step_run :=
  unfold _get_triples, bind, getattr_operator, secrets_randbits,
    ttp_integers, get_shares, apply_cmd, ret, log; simpl.

(** What a run that returns went through. *)
Lemma _get_triples_Ok op_str n a_shape b_shape ring_size kwargs w triple w' :
  run op_str n a_shape b_shape ring_size kwargs w = (Ok triple, w') →
  ∃ cmd seed A B C sa sb sc,
    let lo := (compute_min_max_from_ring ring_size).1 in
    let hi := (compute_min_max_from_ring ring_size).2 in
    operator_getattr op_str = Some cmd
    ∧ cmd A B kwargs = Ok C
    ∧ shares A n a_shape seed = Ok sa
    ∧ shares B n b_shape seed = Ok sb
    ∧ shares C n (tensor_shape C) seed = Ok sc
    ∧ triple = reshape [(sa, sb, sc)]
    ∧ calls w' = calls w ++
        [CallRandbits 32 seed;
         CallIntegers lo hi a_shape (Ok A); CallShares A n a_shape seed;
         CallIntegers lo hi b_shape (Ok B); CallShares B n b_shape seed;
         CallCmd A B kwargs (Ok C);
         CallShares C n (tensor_shape C) seed].
Proof.
  step_run.
  destruct (operator_getattr op_str) as [cmd|]; [|done].
  destruct (compute_min_max_from_ring ring_size) as [lo hi]; simpl.
  destruct (randbits 32 (rng w)) as [seed r1]; simpl.
  destruct (integers lo hi a_shape r1) as [[A|?] r2]; simpl; [|done].
  destruct (shares A n a_shape seed) as [sa|?] eqn:Hsa; simpl; [|done].
  destruct (integers lo hi b_shape r2) as [[B|?] r3]; simpl; [|done].
  destruct (shares B n b_shape seed) as [sb|?] eqn:Hsb; simpl; [|done].
  destruct (cmd A B kwargs) as [C|?] eqn:HC; simpl; [|done].
  destruct (shares C n (tensor_shape C) seed) as [sc|?] eqn:Hsc; simpl; [|done].
  intros [= <- <-]. exists cmd, seed, A, B, C, sa, sb, sc.
  split_and!; try done. simpl. by rewrite <- !app_assoc.
Qed.

(** A run whose collaborators all succeed returns, and its calls are these
    seven, in this order. *)
Lemma _get_triples_returns op_str cmd n a_shape b_shape ring_size kwargs
    w seed r1 A r2 sa B r3 sb C sc :
  let lo := (compute_min_max_from_ring ring_size).1 in
  let hi := (compute_min_max_from_ring ring_size).2 in
  operator_getattr op_str = Some cmd →
  randbits 32 (rng w) = (seed, r1) →
  integers lo hi a_shape r1 = (Ok A, r2) →
  shares A n a_shape seed = Ok sa →
  integers lo hi b_shape r2 = (Ok B, r3) →
  shares B n b_shape seed = Ok sb →
  cmd A B kwargs = Ok C →
  shares C n (tensor_shape C) seed = Ok sc →
  run op_str n a_shape b_shape ring_size kwargs w
  = (Ok (reshape [(sa, sb, sc)]),
     World r3
       (calls w ++
          [CallRandbits 32 seed;
           CallIntegers lo hi a_shape (Ok A); CallShares A n a_shape seed;
           CallIntegers lo hi b_shape (Ok B); CallShares B n b_shape seed;
           CallCmd A B kwargs (Ok C);
           CallShares C n (tensor_shape C) seed])).
Proof.
  intros lo hi Hop Hseed HA Hsa HB Hsb HC Hsc. subst lo hi.
  unfold _get_triples, bind, getattr_operator, secrets_randbits,
    ttp_integers, get_shares, apply_cmd, ret, log.
  rewrite Hop. destruct (compute_min_max_from_ring ring_size) as [lo hi].
  simpl in *. rewrite Hseed. simpl. rewrite HA. simpl. rewrite Hsa.
  rewrite HB. simpl. rewrite Hsb, HC, Hsc. by rewrite <- !app_assoc.
Qed.

(** The calls of any run whose operator string resolves: one seed is drawn,
    and every share splitting is handed that seed. *)
Lemma _get_triples_seed op_str cmd n a_shape b_shape ring_size kwargs w :
  operator_getattr op_str = Some cmd →
  ∃ seed r1 new,
    randbits 32 (rng w) = (seed, r1)
    ∧ calls (run op_str n a_shape b_shape ring_size kwargs w).2 = calls w ++ new
    ∧ seeds_generated new = [seed]
    ∧ Forall (eq seed) (share_seeds new).
Proof.
  intros Hop. step_run. rewrite Hop.
  destruct (compute_min_max_from_ring ring_size) as [lo hi]; simpl.
  destruct (randbits 32 (rng w)) as [seed r1]; simpl.
  exists seed, r1.
  destruct (integers lo hi a_shape r1) as [[A|?] r2]; simpl.
  2: { eexists. rewrite <- !app_assoc. split; [done|]. split; [done|].
       by split. }
  destruct (shares A n a_shape seed) as [sa|?]; simpl.
  2: { eexists. rewrite <- !app_assoc. split; [done|]. split; [done|].
       split; [done|]. by repeat constructor. }
  destruct (integers lo hi b_shape r2) as [[B|?] r3]; simpl.
  2: { eexists. rewrite <- !app_assoc. split; [done|]. split; [done|].
       split; [done|]. by repeat constructor. }
  destruct (shares B n b_shape seed) as [sb|?]; simpl.
  2: { eexists. rewrite <- !app_assoc. split; [done|]. split; [done|].
       split; [done|]. by repeat constructor. }
  destruct (cmd A B kwargs) as [C|?]; simpl.
  2: { eexists. rewrite <- !app_assoc. split; [done|]. split; [done|].
       split; [done|]. by repeat constructor. }
  destruct (shares C n (tensor_shape C) seed) as [sc|?]; simpl.
  all: eexists; rewrite <- !app_assoc; split; [done|]; split; [done|].
  all: split; [done|]; by repeat constructor.
Qed.

(** C1, amended: in a run of a registered generator that returns, C is
    what the operator function ([operator.mul] for ["beaver_mul"],
    [operator.matmul] for ["beaver_matmul"]) returns on the two plaintext
    tensors A and B that the random draws produced; the function is applied
    after A and after B have been split into shares, and before C is
    split; the result is the reshape of the three share lists. *)
Theorem C1_plaintext_product op cmd n a_shape b_shape ring_size kwargs
    w triple w' :
  operator_getattr (op_str_of op) = Some cmd →
  generate operator_getattr compute_min_max_from_ring randbits integers
    tensor_shape shares op n a_shape b_shape ring_size kwargs w
  = (Ok triple, w') →
  ∃ seed A B C sa sb sc,
    let lo := (compute_min_max_from_ring ring_size).1 in
    let hi := (compute_min_max_from_ring ring_size).2 in
    calls w' = calls w ++
      [CallRandbits 32 seed;
       CallIntegers lo hi a_shape (Ok A); CallShares A n a_shape seed;
       CallIntegers lo hi b_shape (Ok B); CallShares B n b_shape seed;
       CallCmd A B kwargs (Ok C);
       CallShares C n (tensor_shape C) seed]
    ∧ cmd A B kwargs = Ok C
    ∧ shares A n a_shape seed = Ok sa
    ∧ shares B n b_shape seed = Ok sb
    ∧ shares C n (tensor_shape C) seed = Ok sc
    ∧ triple = reshape [(sa, sb, sc)].
Proof.
  intros Hop Hrun.
  assert (Hrun' : run (op_str_of op) n a_shape b_shape ring_size kwargs w
                  = (Ok triple, w')) by (by destruct op).
  apply _get_triples_Ok in Hrun'
    as (cmd' & seed & A & B & C & sa & sb & sc & Hop' & HC & Ha & Hb & Hc & Ht & Hcalls).
  rewrite Hop in Hop'. injection Hop' as <-.
  exists seed, A, B, C, sa, sb, sc. split_and!; done.
Qed.

(** C6, amended: a run whose operator string resolves draws exactly one
    seed and hands that seed to every share splitting it makes; when the
    two draws, the operator function and the three splittings succeed, the
    run returns and has made exactly three share splittings, for A, for B
    and for C, each with that seed. *)
Theorem C6_single_seed op_str cmd n a_shape b_shape ring_size kwargs w :
  operator_getattr op_str = Some cmd →
  let lo := (compute_min_max_from_ring ring_size).1 in
  let hi := (compute_min_max_from_ring ring_size).2 in
  let r :=
    _get_triples operator_getattr compute_min_max_from_ring randbits integers
      tensor_shape shares op_str n a_shape b_shape ring_size kwargs w in
  ∃ seed r1 new,
    randbits 32 (rng w) = (seed, r1)
    ∧ calls r.2 = calls w ++ new
    ∧ seeds_generated new = [seed]
    ∧ Forall (eq seed) (share_seeds new)
    ∧ ∀ A r2 sa B r3 sb C sc,
        integers lo hi a_shape r1 = (Ok A, r2) →
        shares A n a_shape seed = Ok sa →
        integers lo hi b_shape r2 = (Ok B, r3) →
        shares B n b_shape seed = Ok sb →
        cmd A B kwargs = Ok C →
        shares C n (tensor_shape C) seed = Ok sc →
        r.1 = Ok (reshape [(sa, sb, sc)])
        ∧ share_seeds new = [seed; seed; seed]
        ∧ share_secrets new = [A; B; C].
Proof.
  intros Hop lo hi r. subst r.
  destruct (_get_triples_seed op_str cmd n a_shape b_shape ring_size kwargs w Hop)
    as (seed & r1 & new & Hseed & Hcalls & Hone & Hall).
  exists seed, r1, new. split_and!; [done..|].
  intros A r2 sa B r3 sb C sc HA Hsa HB Hsb HC Hsc.
  pose proof (_get_triples_returns op_str cmd n a_shape b_shape ring_size
                kwargs w seed r1 A r2 sa B r3 sb C sc
                Hop Hseed HA Hsa HB Hsb HC Hsc) as Hrun.
  rewrite Hrun in Hcalls |- *. simpl in Hcalls.
  apply app_inv_head in Hcalls. subst new. done.
Qed.

(** C7, amended: an operator string for which the module [operator] has no
    attribute makes the run fail with [AttributeError] at its first
    statement: nothing is drawn and no share is made, the world is as it
    was. *)
Theorem C7_unknown_operator op_str n a_shape b_shape ring_size kwargs w :
  operator_getattr op_str = None →
  _get_triples operator_getattr compute_min_max_from_ring randbits integers
    tensor_shape shares op_str n a_shape b_shape ring_size kwargs w
  = (Raise (AttributeError op_str), w).
Proof.
  intros Hop. unfold _get_triples, bind, getattr_operator.
  by rewrite Hop.
Qed.
End GeneratorFacts.

(** C7, as stated, at the operator string ["add"]: it is not registered, yet
    the run does not fail; it returns the bundles of a triple with
    [C = A + B] and makes three share splittings. *)
Lemma C7_add_counterexample :
  let shp := PyTuple [1; 1]%Z in
  let r := demo_get_triples "add" 2 shp shp (2 ^ 32) () demo_world in
  (¬ registered_op_str "add")
  ∧ ("add" ∉ registered_names)
  ∧ r.1 = Ok [[[11; 11; 11]]; [[-8; -6; -3]]]%Z
  ∧ share_secrets (calls r.2) = [3; 5; 8]%Z.
Proof.
  split_and!.
  - intros [[] Hop]; discriminate Hop.
  - unfold registered_names. intros Hin.
    repeat (apply elem_of_cons in Hin as [Hin|Hin]; [discriminate Hin|]).
    by apply elem_of_nil in Hin.
  - vm_compute. reflexivity.
  - vm_compute. reflexivity.
Qed.

(** C1, as stated, on a run of the ["mul"] generator that returns: the
    operator function is applied as sixth call, after the share splittings
    of A and of B (third and fifth call), so the product is not computed
    before any sharing. *)
Lemma C1_shares_before_product_counterexample :
  let shp := PyTuple [1; 1]%Z in
  let lo := (demo_min_max (2 ^ 32)).1 in
  let hi := (demo_min_max (2 ^ 32)).2 in
  let r := demo_get_triples "mul" 2 shp shp (2 ^ 32) () demo_world in
  r.1 = Ok [[[11; 11; 11]]; [[-8; -6; 4]]]%Z
  ∧ calls r.2
    = [CallRandbits 32 11;
       CallIntegers lo hi shp (Ok 3); CallShares 3 2 shp 11;
       CallIntegers lo hi shp (Ok 5); CallShares 5 2 shp 11;
       CallCmd 3 5 () (Ok 15);
       CallShares 15 2 shp 11]%Z
  ∧ ¬ product_before_any_sharing (calls r.2).
Proof.
  split_and!.
  - vm_compute. reflexivity.
  - vm_compute. reflexivity.
  - intros Hbefore.
    assert (5 < 2) as Hlt; [|lia].
    apply (Hbefore 5 2 (CallCmd 3%Z 5%Z () (Ok 15%Z))
             (CallShares 3%Z 2%Z (PyTuple [1; 1]%Z) 11%Z)).
    + vm_compute. reflexivity.
    + vm_compute. reflexivity.
    + exact I.
    + exact I.
Qed.

(** C6, as stated, on two calls that do not get that far: with the operator
    string ["beaver_mul"] the run fails at the lookup and draws no seed at
    all; with a ring whose bounds the draw of A rejects, the seed is drawn
    and no share splitting is made. *)
Lemma C6_no_seed_counterexample :
  let shp := PyTuple [1; 1]%Z in
  let r0 := demo_get_triples "beaver_mul" 2 shp shp (2 ^ 32) () demo_world in
  let r1 :=
    _get_triples demo_operator demo_min_max demo_randbits demo_integers_int32
      demo_shape demo_shares "mul" 2 shp shp (2 ^ 64) () demo_world in
  r0.1 = Raise (AttributeError "beaver_mul")
  ∧ seeds_generated (calls r0.2) = []
  ∧ share_seeds (calls r0.2) = []
  ∧ r1.1 = Raise ValueError
  ∧ seeds_generated (calls r1.2) = [11]%Z
  ∧ share_seeds (calls r1.2) = [].
Proof. split_and!; vm_compute; reflexivity. Qed.

(** ** Runs on concrete inputs *)

Lemma C1_plaintext_product_witness :
  let shp := PyTuple [1; 1]%Z in
  ∃ seed A B C sa sb sc,
    calls (demo_get_triples "mul" 2 shp shp (2 ^ 32) () demo_world).2
    = [CallRandbits 32 seed;
       CallIntegers (demo_min_max (2 ^ 32)).1 (demo_min_max (2 ^ 32)).2 shp (Ok A);
       CallShares A 2 shp seed;
       CallIntegers (demo_min_max (2 ^ 32)).1 (demo_min_max (2 ^ 32)).2 shp (Ok B);
       CallShares B 2 shp seed;
       CallCmd A B () (Ok C);
       CallShares C 2 (demo_shape C) seed]
    ∧ Ok (A * B)%Z = Ok C
    ∧ demo_shares A 2 shp seed = Ok sa
    ∧ demo_shares B 2 shp seed = Ok sb
    ∧ demo_shares C 2 (demo_shape C) seed = Ok sc
    ∧ [[[11; 11; 11]]; [[-8; -6; 4]]]%Z = reshape [(sa, sb, sc)].
Proof.
  intros shp.
  apply (C1_plaintext_product demo_operator demo_min_max demo_randbits
           demo_integers demo_shape demo_shares beaver_mul
           (λ a b _, Ok (a * b)%Z) 2 shp shp (2 ^ 32) () demo_world
           [[[11; 11; 11]]; [[-8; -6; 4]]]%Z
           (demo_get_triples "mul" 2 shp shp (2 ^ 32) () demo_world).2).
  - reflexivity.
  - vm_compute. reflexivity.
Defined.

Lemma C6_single_seed_witness :
  let shp := PyTuple [1; 1]%Z in
  let r := demo_get_triples "matmul" 2 shp shp (2 ^ 32) () demo_world in
  ∃ new,
    calls r.2 = calls demo_world ++ new
    ∧ seeds_generated new = [11]%Z
    ∧ r.1 = Ok (reshape [([11; -8], [11; -6], [11; 4])])%Z
    ∧ share_seeds new = [11; 11; 11]%Z
    ∧ share_secrets new = [3; 5; 15]%Z.
Proof.
  intros shp r.
  destruct (C6_single_seed demo_operator demo_min_max demo_randbits
              demo_integers demo_shape demo_shares "matmul"
              (λ a b _, Ok (a * b)%Z) 2 shp shp (2 ^ 32) () demo_world
              eq_refl)
    as (seed & r1 & new & Hseed & Hcalls & Hone & _ & Hthree).
  injection Hseed as <- <-.
  destruct (Hthree 3 [5] [11; -8] 5 [] [11; -6] 15 [11; 4]
              eq_refl eq_refl eq_refl eq_refl eq_refl eq_refl)%Z
    as (Hr & Hs & Hsec).
  exists new. split_and!; done.
Defined.

Lemma C7_unknown_operator_witness :
  let shp := PyTuple [1; 1]%Z in
  demo_operator "beaver_mul" = None
  ∧ demo_get_triples "beaver_mul" 2 shp shp (2 ^ 32) () demo_world
    = (Raise (AttributeError "beaver_mul"), demo_world).
Proof.
  intros shp. split; [reflexivity|].
  apply (C7_unknown_operator demo_operator demo_min_max demo_randbits
           demo_integers demo_shape demo_shares).
  reflexivity.
Defined.

Lemma C2_reshape_fidelity_witness :
  reshape_faithful 2 2
    [([1; 2], [3; 4], [5; 6]); ([7; 8], [9; 10], [11; 12])].
Proof.
  apply C2_reshape_fidelity.
  - lia.
  - reflexivity.
  - repeat constructor.
Defined.

Lemma C5_store_fifo_witness :
  let a := PyTuple [2; 3]%Z in
  let st : state nat := State ∅ {[ 0 := [10]; 1 := [20]; 2 := [30] ]} in
  let st3 := store_add beaver_mul
               (store_add beaver_mul (store_add beaver_mul st 0 a a) 1 a a)
               2 a a in
  let r1 := store_get beaver_mul st3 a a true in
  let r2 := store_get beaver_mul r1.2 a a true in
  let r3 := store_get beaver_mul r2.2 a a true in
  let r4 := store_get beaver_mul r3.2 a a true in
  r1.1 = Ok 10 ∧ r2.1 = Ok 20 ∧ r3.1 = Ok 30
  ∧ is_empty_primitive_store r4.1.
Proof.
  intros a st.
  apply (C5_store_fifo beaver_mul st [2; 3]%Z [2; 3]%Z 0 1 2 10 20 30).
  - left. vm_compute. reflexivity.
  - vm_compute. reflexivity.
  - vm_compute. reflexivity.
  - vm_compute. reflexivity.
Defined.

Lemma C8_get_without_remove_witness :
  let a := PyList [4]%Z in
  let st : state nat :=
    store_add beaver_matmul (State ∅ {[ 0 := [7; 8] ]}) 0
      (PyTuple [4]%Z) (PyTuple [4]%Z) in
  let r1 := store_get beaver_matmul st a a false in
  let r2 := store_get beaver_matmul r1.2 a a false in
  r1.1 = Ok 7 ∧ r1.2 = st ∧ r2.1 = Ok 7 ∧ r2.2 = st.
Proof.
  intros a st.
  apply (C8_get_without_remove beaver_matmul st a a 7 [8]).
  vm_compute. reflexivity.
Defined.

Lemma C10_failed_get_keeps_store_witness :
  let a := PyTuple [4]%Z in
  let st : state nat := State {[ "beaver_mul_(4,)_(4,)" := 0 ]} {[ 0 := [] ]} in
  (store_get beaver_mul st a a true).2 = st.
Proof.
  intros a st.
  apply (C10_failed_get_keeps_store beaver_mul st a a true).
  eexists. vm_compute. reflexivity.
Defined.

Lemma C9_key_isolation_witness :
  let a := PyTuple [1]%Z in
  let st : state nat :=
    matmul_store_add
      (mul_store_add (State ∅ {[ 0 := [5]; 1 := [6]; 2 := [7] ]}) 0 a a)
      1 a a in
  let st' := store_add beaver_mul st 2 a a in
  queue st' (get_key beaver_matmul a a) = queue st (get_key beaver_matmul a a)
  ∧ (store_get beaver_matmul st' a a true).1
    = (store_get beaver_matmul st a a true).1
  ∧ ∀ a0 b0 a' b',
      add_key beaver_mul a0 b0 ≠ add_key beaver_matmul a' b'
      ∧ add_key beaver_mul a0 b0 ≠ get_key beaver_matmul a' b'
      ∧ add_key beaver_matmul a0 b0 ≠ get_key beaver_mul a' b'.
Proof.
  intros a st.
  apply (C9_key_isolation st beaver_mul 2 a a beaver_matmul a a true).
  - left. discriminate.
  - right. vm_compute. discriminate.
Defined.

(** * Further properties of the store *)

Section StoreMore.
Context {A : Type}.
Implicit Types (st : state A) (k : string) (p : loc).

Lemma store_add_key_absent st k p :
  store st !! k = None →
  store_add_key k st p = State (<[k := p]> (store st)) (heap st).
Proof. intros Hk. unfold store_add_key. by rewrite Hk. Qed.

Lemma store_get_key_drained st k remove :
  queue st k = Some [] →
  (store_get_key k st remove).1
  = Raise (EmptyPrimitiveStore ("No primitive in the store for " +:+ k)).
Proof.
  unfold queue, store_get_key.
  destruct (store st !! k) as [q|]; simpl; [|done].
  by intros [= ->].
Qed.

Lemma store_get_key_store st k remove :
  store (store_get_key k st remove).2 = store st.
Proof.
  unfold store_get_key. destruct (store st !! k) as [q|]; [|done].
  destruct (deref (heap st) q); [done|]. by destruct remove.
Qed.
End StoreMore.

(** X1: whatever the store holds, an add leaves under its key the queue the
    key had before (none counts as empty) followed by the items the bundle
    holds when the call is made. *)
Theorem X1_add_appends {A} op (st : state A) p a b :
  queue (store_add op st p a b) (add_key op a b)
  = Some (default [] (queue st (add_key op a b)) ++ deref (heap st) p).
Proof. rewrite store_add_eq. apply queue_store_add_key. Qed.

(** X2: a bundle [x :: rest] added with tuple shapes under a key that is
    absent or drained is found by a get whose shapes have the same items in
    a tuple or in a list: the get returns [x], and leaves [rest] when it
    removes. *)
Theorem X2_add_then_get {A} op (st : state A) p da db a b x rest remove :
  dims a = da → dims b = db →
  queue st (add_key op (PyTuple da) (PyTuple db)) = None
  ∨ queue st (add_key op (PyTuple da) (PyTuple db)) = Some [] →
  deref (heap st) p = x :: rest →
  let r := store_get op (store_add op st p (PyTuple da) (PyTuple db)) a b remove in
  r.1 = Ok x
  ∧ queue r.2 (get_key op a b) = Some (if remove then rest else x :: rest).
Proof.
  intros <- <- Hinit Hp r. subst r. rewrite store_get_eq.
  change (get_key op a b) with (add_key op (PyTuple (dims a)) (PyTuple (dims b))).
  set (K := add_key op (PyTuple (dims a)) (PyTuple (dims b))) in *.
  assert (Hq : queue (store_add op st p (PyTuple (dims a)) (PyTuple (dims b))) K
               = Some (x :: rest)).
  { rewrite store_add_eq. fold K. rewrite queue_store_add_key, Hp.
    by destruct Hinit as [-> | ->]. }
  destruct (store_get_key_head _ K remove x rest Hq) as (? & ? & _). done.
Qed.

(** X3: a get never adds, removes or rebinds a key of the dict, also when it
    takes the last item: a drained key stays, bound to its empty list. *)
Theorem X3_get_keeps_keys {A} op (st : state A) a b remove :
  store (store_get op st a b remove).2 = store st
  ∧ ∀ x, queue st (get_key op a b) = Some [x] →
      queue (store_get op st a b true).2 (get_key op a b) = Some [].
Proof.
  rewrite !store_get_eq. split; [apply store_get_key_store|].
  intros x Hq. by destruct (store_get_key_head st _ true x [] Hq) as (_ & ? & _).
Qed.

(** X4: the two failures of a get carry different messages: for an absent
    key the key followed by [" does not exists in the store"], for a key
    bound to an empty list ["No primitive in the store for "] followed by
    the key. *)
Theorem X4_get_messages {A} op (st : state A) a b remove :
  let K := get_key op a b in
  match queue st K with
  | None =>
      (store_get op st a b remove).1
      = Raise (EmptyPrimitiveStore (K +:+ " does not exists in the store"))
  | Some [] =>
      (store_get op st a b remove).1
      = Raise (EmptyPrimitiveStore ("No primitive in the store for " +:+ K))
  | Some (x :: _) => (store_get op st a b remove).1 = Ok x
  end.
Proof.
  intros K. rewrite store_get_eq. fold K.
  destruct (queue st K) as [[|x rest]|] eqn:Hq.
  - by apply store_get_key_drained.
  - by destruct (store_get_key_head st K remove x rest Hq) as (? & _).
  - apply queue_None in Hq. unfold store_get_key. by rewrite Hq.
Qed.

(** X5: as many removing gets as the queue has items return the items in
    queue order; the key is then bound to the empty list and one more get
    raises the "No primitive" failure. *)
Theorem X5_drain_in_order {A} op (st : state A) a b l :
  queue st (get_key op a b) = Some l →
  let r := get_many op st a b (length l) in
  r.1 = Ok <$> l
  ∧ queue r.2 (get_key op a b) = Some []
  ∧ (store_get op r.2 a b true).1
    = Raise (EmptyPrimitiveStore
               ("No primitive in the store for " +:+ get_key op a b)).
Proof.
  revert st. induction l as [|x l IH]; intros st Hq; simpl.
  - split_and!; [done..|]. rewrite store_get_eq. by apply store_get_key_drained.
  - destruct (store_get op st a b true) as [r st'] eqn:Hget.
    rewrite store_get_eq in Hget.
    destruct (store_get_key_head st _ true x l Hq) as (Hr & Hq' & _).
    rewrite Hget in Hr, Hq'. simpl in Hr, Hq'. subst r.
    specialize (IH st' Hq'). simpl in IH.
    destruct (get_many op st' a b (length l)) as [rs st'']. simpl in *.
    destruct IH as (-> & ? & ?). done.
Qed.

(** X6: a bundle added under an absent key is the queue itself, not a copy:
    the removing get that serves its first item shortens the list object
    the caller passed. *)
Theorem X6_get_consumes_bundle {A} op (st : state A) p da db x rest :
  store st !! add_key op (PyTuple da) (PyTuple db) = None →
  deref (heap st) p = x :: rest →
  let st1 := store_add op st p (PyTuple da) (PyTuple db) in
  let r := store_get op st1 (PyTuple da) (PyTuple db) true in
  store st1 !! add_key op (PyTuple da) (PyTuple db) = Some p
  ∧ heap st1 = heap st
  ∧ r.1 = Ok x
  ∧ deref (heap r.2) p = rest.
Proof.
  intros Hk Hp st1 r. subst r st1.
  rewrite store_get_eq, store_add_eq, get_key_tuple.
  set (K := add_key op (PyTuple da) (PyTuple db)) in *.
  rewrite store_add_key_absent by done. simpl.
  unfold store_get_key. simpl. rewrite lookup_insert_eq, Hp. simpl.
  split_and!; [done..|]. unfold deref. by rewrite lookup_insert_eq.
Qed.

(** X7: the same bundle object added twice under an absent key extends
    itself: the queue holds its items twice over. *)
Theorem X7_same_bundle_twice {A} op (st : state A) p a b :
  store st !! add_key op a b = None →
  queue (store_add op (store_add op st p a b) p a b) (add_key op a b)
  = Some (deref (heap st) p ++ deref (heap st) p).
Proof.
  intros Hk. rewrite !store_add_eq.
  set (K := add_key op a b) in *.
  rewrite queue_store_add_key, queue_store_add_key.
  apply queue_None in Hk as Hq. rewrite Hq. simpl.
  by rewrite store_add_key_absent.
Qed.

(** X8: an add makes its key present and touches no other key; under an
    absent key it binds the key and mutates no list, under a present key it
    leaves the dict as it is. *)
Theorem X8_add_frame {A} op (st : state A) p a b :
  let K := add_key op a b in
  let st' := store_add op st p a b in
  dom (store st') = {[ K ]} ∪ dom (store st)
  ∧ (∀ k, k ≠ K → store st' !! k = store st !! k)
  ∧ match store st !! K with
    | None => store st' !! K = Some p ∧ heap st' = heap st
    | Some q => store st' = store st
    end.
Proof.
  intros K st'. subst st'. rewrite store_add_eq. fold K.
  unfold store_add_key.
  destruct (store st !! K) as [q|] eqn:Hk; simpl.
  - split_and!; [|done..].
    apply set_eq. intros k. rewrite elem_of_union, elem_of_singleton.
    split; [auto|]. intros [->|?]; [|done]. by apply elem_of_dom_2 with q.
  - split_and!.
    + by rewrite dom_insert_L.
    + intros k Hne. by rewrite lookup_insert_ne.
    + by rewrite lookup_insert_eq.
    + done.
Qed.

(** X12: a removing get mutates one list object only: the queue of every
    key bound to another object, or to none, is what it was. *)
Theorem X12_get_frame {A} op (st : state A) a b remove k :
  store st !! k ≠ store st !! get_key op a b →
  queue (store_get op st a b remove).2 k = queue st k.
Proof.
  intros Hne. rewrite store_get_eq. unfold queue, store_get_key.
  destruct (store st !! get_key op a b) as [q|] eqn:Hk; [|done].
  destruct (deref (heap st) q) as [|x rest]; [done|].
  destruct remove; [|done]. simpl.
  destruct (store st !! k) as [q'|]; [|done]. simpl.
  unfold deref. rewrite lookup_insert_ne; [done|congruence].
Qed.

(** * Further properties of the keys *)

(** X9: the key an add builds determines the operation and both shapes
    with their containers: two adds file under one key exactly when they
    agree on all three. *)
Theorem X9_add_key_injective op a b op' a' b' :
  add_key op a b = add_key op' a' b' ↔ op = op' ∧ a = a' ∧ b = b'.
Proof.
  split; [apply add_key_inj|]. by intros (-> & -> & ->).
Qed.

(** X10: the key a get builds depends on the operation and on the items of
    the two shapes, and on nothing else: two gets read one key exactly when
    they agree on the operation and on the items, whatever the containers. *)
Theorem X10_get_key_items op a b op' a' b' :
  get_key op a b = get_key op' a' b'
  ↔ op = op' ∧ dims a = dims a' ∧ dims b = dims b'.
Proof.
  split.
  - intros Heq. apply add_key_inj in Heq as (-> & [= ->] & [= ->]). done.
  - intros (-> & Ha & Hb). by apply get_key_container_blind.
Qed.

(** X11: a bundle added with a list for either shape is filed under a key
    that no get reads, whatever operation and shapes the get is given. *)
Theorem X11_list_key_never_read op l s op' a' b' :
  add_key op (PyList l) s ≠ get_key op' a' b'
  ∧ add_key op s (PyList l) ≠ get_key op' a' b'.
Proof.
  split; intros Heq; apply add_key_inj in Heq as (_ & ? & ?); done.
Qed.

(** * Further properties of the reshape *)

Section ReshapeMore.
Context {X : Type}.
Implicit Types (ts : list (list X * list X * list X)).

Lemma instance_row_is_Some (a b c : list X) i :
  is_Some (zip_star [a; b; c] !! i)
  ↔ is_Some (a !! i) ∧ is_Some (b !! i) ∧ is_Some (c !! i).
Proof.
  rewrite zip_star_lookup by done. rewrite mapM_is_Some.
  rewrite !Forall_cons. simpl. split.
  - intros (? & ? & ? & _). done.
  - intros (? & ? & ?). by repeat split.
Qed.

(** The bundle of party [i] after one instance. *)
Lemma reshape_one_lookup (a b c : list X) i :
  reshape [(a, b, c)] !! i
  = (x ← a !! i; y ← b !! i; z ← c !! i; Some [[x; y; z]]).
Proof.
  unfold reshape. cbn [fmap list_fmap zip_star].
  rewrite list_lookup_fmap.
  change (zip_with cons a (zip_with cons b ((λ x, [x]) <$> c)))
    with (zip_star [a; b; c]).
  rewrite zip_star_lookup by done. simpl.
  destruct (a !! i), (b !! i), (c !! i); done.
Qed.
End ReshapeMore.

(** X13: share lists of unequal lengths are cut, not rejected: with at
    least one instance, the reshape has a bundle for party [i] exactly when
    every share list of every instance has an item at [i], and every bundle
    it has holds one entry per instance. *)
Theorem X13_reshape_truncates {X} (ts : list (list X * list X * list X)) i :
  ts ≠ [] →
  (is_Some (reshape ts !! i)
   ↔ Forall (λ x, let '(a, b, c) := x in
                  is_Some (a !! i) ∧ is_Some (b !! i) ∧ is_Some (c !! i)) ts)
  ∧ ∀ bundle, reshape ts !! i = Some bundle → length bundle = length ts.
Proof.
  intros Hne. unfold reshape.
  rewrite zip_star_lookup by (by destruct ts).
  split.
  - rewrite mapM_is_Some, Forall_fmap.
    apply Forall_iff. intros [[a b] c]. simpl. apply instance_row_is_Some.
  - intros bundle Hb. apply length_mapM in Hb.
    by rewrite length_fmap in Hb.
Qed.

(** * Further properties of the generator *)

Section GeneratorMore.
Context {T Sh KW W : Type}.
Variable operator_getattr : string → option (T → T → KW → result T).
Variable compute_min_max_from_ring : Z → Z * Z.
Variable randbits : nat → W → Z * W.
Variable integers : Z → Z → shape → W → result T * W.
Variable tensor_shape : T → shape.
Variable _get_shares_from_local_secret : T → Z → shape → Z → result (list Sh).

#[local] Abbreviation shares := _get_shares_from_local_secret.

(** X14: when the operator function rejects the two tensors, the run
    raises that very exception; by then the seed is drawn and A and B are
    drawn and split, and C is never split. *)
Theorem X14_combinator_failure op_str cmd n a_shape b_shape ring_size kwargs
    w seed r1 A r2 sa B r3 sb e :
  let lo := (compute_min_max_from_ring ring_size).1 in
  let hi := (compute_min_max_from_ring ring_size).2 in
  operator_getattr op_str = Some cmd →
  randbits 32 (rng w) = (seed, r1) →
  integers lo hi a_shape r1 = (Ok A, r2) →
  shares A n a_shape seed = Ok sa →
  integers lo hi b_shape r2 = (Ok B, r3) →
  shares B n b_shape seed = Ok sb →
  cmd A B kwargs = Raise e →
  _get_triples operator_getattr compute_min_max_from_ring randbits integers
    tensor_shape shares op_str n a_shape b_shape ring_size kwargs w
  = (Raise e,
     World r3
       (calls w ++
          [CallRandbits 32 seed;
           CallIntegers lo hi a_shape (Ok A); CallShares A n a_shape seed;
           CallIntegers lo hi b_shape (Ok B); CallShares B n b_shape seed;
           CallCmd A B kwargs (Raise e)])).
Proof.
  intros lo hi Hop Hseed HA Hsa HB Hsb HC. subst lo hi.
  unfold _get_triples, bind, getattr_operator, secrets_randbits,
    ttp_integers, get_shares, apply_cmd, ret, log.
  rewrite Hop. destruct (compute_min_max_from_ring ring_size) as [lo hi].
  simpl in *. rewrite Hseed. simpl. rewrite HA. simpl. rewrite Hsa.
  rewrite HB. simpl. rewrite Hsb, HC. by rewrite <- !app_assoc.
Qed.

(** X15: when the draw of A fails, the run raises that exception with the
    seed already drawn and nothing split: B is not drawn and the share
    splitter is not called. *)
Theorem X15_first_draw_failure op_str cmd n a_shape b_shape ring_size kwargs
    w seed r1 r2 e :
  let lo := (compute_min_max_from_ring ring_size).1 in
  let hi := (compute_min_max_from_ring ring_size).2 in
  operator_getattr op_str = Some cmd →
  randbits 32 (rng w) = (seed, r1) →
  integers lo hi a_shape r1 = (Raise e, r2) →
  _get_triples operator_getattr compute_min_max_from_ring randbits integers
    tensor_shape shares op_str n a_shape b_shape ring_size kwargs w
  = (Raise e,
     World r2
       (calls w ++
          [CallRandbits 32 seed; CallIntegers lo hi a_shape (Raise e)])).
Proof.
  intros lo hi Hop Hseed HA. subst lo hi.
  unfold _get_triples, bind, getattr_operator, secrets_randbits,
    ttp_integers, get_shares, apply_cmd, ret, log.
  rewrite Hop. destruct (compute_min_max_from_ring ring_size) as [lo hi].
  simpl in *. rewrite Hseed. simpl. rewrite HA. simpl.
  by rewrite <- !app_assoc.
Qed.

(** X16: when the share splitter returns [k] shares whenever it is asked
    for [n] parties, a run that returns gives [k] bundles, and the bundle of
    party [i] holds one triple: the shares at [i] of A, of B and of C, in
    that order. *)
Theorem X16_one_triple_per_party op_str n a_shape b_shape ring_size kwargs
    w triple w' (k : nat) :
  (∀ t shp seed l, shares t n shp seed = Ok l → length l = k) →
  _get_triples operator_getattr compute_min_max_from_ring randbits integers
    tensor_shape shares op_str n a_shape b_shape ring_size kwargs w
  = (Ok triple, w') →
  length triple = k
  ∧ ∃ seed A B C sa sb sc,
      shares A n a_shape seed = Ok sa
      ∧ shares B n b_shape seed = Ok sb
      ∧ shares C n (tensor_shape C) seed = Ok sc
      ∧ ∀ i, i < k →
          ∃ x y z, sa !! i = Some x ∧ sb !! i = Some y ∧ sc !! i = Some z
            ∧ triple !! i = Some [[x; y; z]].
Proof.
  intros Hlen Hrun.
  apply _get_triples_Ok in Hrun
    as (cmd & seed & A & B & C & sa & sb & sc & _ & _ & Ha & Hb & Hc & -> & _).
  pose proof (Hlen _ _ _ _ Ha) as La.
  pose proof (Hlen _ _ _ _ Hb) as Lb.
  pose proof (Hlen _ _ _ _ Hc) as Lc.
  split.
  - unfold reshape. cbn [fmap list_fmap].
    apply zip_star_length; [done|]. constructor; [|constructor].
    apply (zip_star_length [sa; sb; sc]); [done|]. by repeat constructor.
  - exists seed, A, B, C, sa, sb, sc. split_and!; [done..|].
    intros i Hi.
    destruct (lookup_lt_is_Some_2 sa i) as [x Hx]; [lia|].
    destruct (lookup_lt_is_Some_2 sb i) as [y Hy]; [lia|].
    destruct (lookup_lt_is_Some_2 sc i) as [z Hz]; [lia|].
    exists x, y, z. split_and!; [done..|].
    rewrite reshape_one_lookup, Hx, Hy, Hz. done.
Qed.
End GeneratorMore.

(** ** Further runs on concrete inputs *)

Lemma X2_add_then_get_witness :
  let st : state nat := State ∅ {[ 0 := [7; 8] ]} in
  let r := store_get beaver_mul
             (store_add beaver_mul st 0 (PyTuple [2; 3]%Z) (PyTuple [3; 4]%Z))
             (PyList [2; 3]%Z) (PyList [3; 4]%Z) true in
  r.1 = Ok 7
  ∧ queue r.2 (get_key beaver_mul (PyList [2; 3]%Z) (PyList [3; 4]%Z))
    = Some [8].
Proof.
  intros st.
  apply (X2_add_then_get beaver_mul st 0 [2; 3]%Z [3; 4]%Z
           (PyList [2; 3]%Z) (PyList [3; 4]%Z) 7 [8] true).
  - reflexivity.
  - reflexivity.
  - left. vm_compute. reflexivity.
  - vm_compute. reflexivity.
Defined.

Lemma X5_drain_in_order_witness :
  let a := PyTuple [2]%Z in
  let st : state nat :=
    store_add beaver_matmul (State ∅ {[ 0 := [7; 8; 9] ]}) 0 a a in
  let r := get_many beaver_matmul st a a 3 in
  r.1 = [Ok 7; Ok 8; Ok 9]
  ∧ queue r.2 (get_key beaver_matmul a a) = Some []
  ∧ (store_get beaver_matmul r.2 a a true).1
    = Raise (EmptyPrimitiveStore
               ("No primitive in the store for " +:+ get_key beaver_matmul a a)).
Proof.
  intros a st.
  apply (X5_drain_in_order beaver_matmul st a a [7; 8; 9]).
  vm_compute. reflexivity.
Defined.

Lemma X6_get_consumes_bundle_witness :
  let st : state nat := State ∅ {[ 5 := [7; 8] ]} in
  let st1 := store_add beaver_mul st 5 (PyTuple [2]%Z) (PyTuple [2]%Z) in
  let r := store_get beaver_mul st1 (PyTuple [2]%Z) (PyTuple [2]%Z) true in
  store st1 !! add_key beaver_mul (PyTuple [2]%Z) (PyTuple [2]%Z) = Some 5
  ∧ heap st1 = heap st
  ∧ r.1 = Ok 7
  ∧ deref (heap r.2) 5 = [8].
Proof.
  intros st.
  apply (X6_get_consumes_bundle beaver_mul st 5 [2]%Z [2]%Z 7 [8]).
  - vm_compute. reflexivity.
  - vm_compute. reflexivity.
Defined.

Lemma X7_same_bundle_twice_witness :
  let a := PyTuple [2]%Z in
  let st : state nat := State ∅ {[ 0 := [7; 8] ]} in
  queue (store_add beaver_mul (store_add beaver_mul st 0 a a) 0 a a)
    (add_key beaver_mul a a)
  = Some ([7; 8] ++ [7; 8]).
Proof.
  intros a st.
  apply (X7_same_bundle_twice beaver_mul st 0 a a).
  vm_compute. reflexivity.
Defined.

Lemma X12_get_frame_witness :
  let a := PyTuple [2]%Z in
  let b := PyTuple [3]%Z in
  let st : state nat :=
    store_add beaver_mul
      (store_add beaver_mul (State ∅ {[ 0 := [7]; 1 := [8] ]}) 0 a a) 1 b b in
  queue (store_get beaver_mul st a a true).2 (add_key beaver_mul b b)
  = queue st (add_key beaver_mul b b).
Proof.
  intros a b st.
  apply (X12_get_frame beaver_mul st a a true (add_key beaver_mul b b)).
  vm_compute. discriminate.
Defined.

Lemma X13_reshape_truncates_witness :
  let ts := [([1; 2; 3], [4; 5], [6; 7; 8])] in
  (is_Some (reshape ts !! 2)
   ↔ Forall (λ x, let '(a, b, c) := x in
                  is_Some (a !! 2) ∧ is_Some (b !! 2) ∧ is_Some (c !! 2)) ts)
  ∧ ∀ bundle, reshape ts !! 2 = Some bundle → length bundle = length ts.
Proof.
  intros ts. apply (X13_reshape_truncates ts 2). discriminate.
Defined.

Lemma X14_combinator_failure_witness :
  let shp := PyTuple [1; 1]%Z in
  let lo := (demo_min_max (2 ^ 32)).1 in
  let hi := (demo_min_max (2 ^ 32)).2 in
  _get_triples demo_operator_strict demo_min_max demo_randbits demo_integers
    demo_shape demo_shares "matmul" 2 shp shp (2 ^ 32) () demo_world
  = (Raise ValueError,
     World []
       (calls demo_world ++
          [CallRandbits 32 11;
           CallIntegers lo hi shp (Ok 3); CallShares 3 2 shp 11;
           CallIntegers lo hi shp (Ok 5); CallShares 5 2 shp 11;
           CallCmd 3 5 () (Raise ValueError)]))%Z.
Proof.
  intros shp.
  apply (X14_combinator_failure demo_operator_strict demo_min_max
           demo_randbits demo_integers demo_shape demo_shares "matmul"
           (λ a b _, Raise ValueError) 2 shp shp (2 ^ 32) () demo_world
           11 [3; 5] 3 [5] [11; -8] 5 [] [11; -6] ValueError)%Z.
  all: reflexivity.
Defined.

Lemma X15_first_draw_failure_witness :
  let shp := PyTuple [1; 1]%Z in
  let lo := (demo_min_max (2 ^ 64)).1 in
  let hi := (demo_min_max (2 ^ 64)).2 in
  _get_triples demo_operator demo_min_max demo_randbits demo_integers_int32
    demo_shape demo_shares "mul" 2 shp shp (2 ^ 64) () demo_world
  = (Raise ValueError,
     World [3; 5]
       (calls demo_world ++
          [CallRandbits 32 11; CallIntegers lo hi shp (Raise ValueError)]))%Z.
Proof.
  intros shp.
  apply (X15_first_draw_failure demo_operator demo_min_max demo_randbits
           demo_integers_int32 demo_shape demo_shares "mul"
           (λ a b _, Ok (a * b)) 2 shp shp (2 ^ 64) () demo_world
           11 [3; 5] [3; 5] ValueError)%Z.
  all: reflexivity.
Defined.

Lemma X16_one_triple_per_party_witness :
  let shp := PyTuple [1; 1]%Z in
  let r := demo_get_triples "mul" 2 shp shp (2 ^ 32) () demo_world in
  length [[[11; 11; 11]]; [[-8; -6; 4]]]%Z = 2
  ∧ ∃ seed A B C sa sb sc,
      demo_shares A 2 shp seed = Ok sa
      ∧ demo_shares B 2 shp seed = Ok sb
      ∧ demo_shares C 2 (demo_shape C) seed = Ok sc
      ∧ ∀ i, i < 2 →
          ∃ x y z, sa !! i = Some x ∧ sb !! i = Some y ∧ sc !! i = Some z
            ∧ [[[11; 11; 11]]; [[-8; -6; 4]]]%Z !! i = Some [[x; y; z]].
Proof.
  intros shp r.
  apply (X16_one_triple_per_party demo_operator demo_min_max demo_randbits
           demo_integers demo_shape demo_shares "mul" 2 shp shp (2 ^ 32) ()
           demo_world [[[11; 11; 11]]; [[-8; -6; 4]]]%Z r.2 2).
  - intros t s seed l [= <-]. reflexivity.
  - vm_compute. reflexivity.
Defined.
